(** * webhook-host: the in-memory request log of [main.go]

    A shallow embedding of the three HTTP handlers of [main.go] and of the
    package-level state they share ([requests], [nextID], guarded by [mu]),
    followed by the properties of the capture log: capacity, ordering,
    id assignment, eviction, clearing, header flattening and totality.

    Handlers run one at a time here: every access to [requests] and [nextID]
    in the source sits between [mu.Lock()] and [mu.Unlock()] (or under
    [mu.RLock()]), so a serial run of critical sections is what the lock
    admits. The size of [int], which the build target fixes, is a parameter
    of everything that touches [nextID]. *)

From stdpp Require Import base numbers list option strings pretty sorting gmap fin_maps.

Local Open Scope Z_scope.

(** ** Go's [int] *)

Module GoInt.

(** The size of [int] is fixed by the build target: 32 bits on the 32-bit
    targets, 64 bits on the others. Signed overflow wraps around (two's
    complement), it does not trap. *)
Inductive IntSize : Type := Int32 | Int64.
Existing Class IntSize.

Definition bits (w : IntSize) : Z :=
  match w with Int32 => 32 | Int64 => 64 end.

Section Width.
Context {w : IntSize}.

Definition maxInt : Z := 2 ^ (bits w - 1) - 1.
Definition minInt : Z := - 2 ^ (bits w - 1).

Definition wrap (z : Z) : Z :=
  (z + 2 ^ (bits w - 1)) `mod` 2 ^ bits w - 2 ^ (bits w - 1).

(** [x++] on an [int]. *)
Definition incr (x : Z) : Z := wrap (x + 1).

Definition inRange (z : Z) : Prop := minInt ≤ z ≤ maxInt.

End Width.

End GoInt.

(** ** Data model *)

(** [time.Time], as nanoseconds since the epoch. *)
Definition Time : Type := Z.

(** [type RequestInfo struct]. A Go [string] is a sequence of bytes, as
    is [string] here. *)
Record RequestInfo : Type := mkRequestInfo {
  ID         : Z;
  Method     : string;
  URL        : string;
  Headers    : gmap string string;
  Body       : string;
  Timestamp  : Time;
  RemoteAddr : string
}.

(** [info.ID = id]: the one field assignment the source performs on a
    [RequestInfo] after it is built. *)
Definition setID (id : Z) (info : RequestInfo) : RequestInfo :=
  {| ID := id; Method := Method info; URL := URL info;
     Headers := Headers info; Body := Body info;
     Timestamp := Timestamp info; RemoteAddr := RemoteAddr info |}.

(** The package-level variables [requests] and [nextID]. A nil slice and an
    empty slice are both the empty list: [len], indexing and [range] do not
    tell them apart (the JSON encoder does, and its output is not part of
    this development). *)
Record Store : Type := mkStore {
  requests : list RequestInfo;
  nextID   : Z
}.

(** [var ( requests []RequestInfo; nextID = 1 )] *)
Definition initial : Store := {| requests := []; nextID := 1 |}.

(** ** Effects: shared state and run-time panics *)

Inductive result (A : Type) : Type :=
| Ok (a : A)
| Panic (msg : string).
Arguments Ok {A} a.
Arguments Panic {A} msg.

(** A computation reads and writes the store and may panic; the store at
    the moment of the panic is kept. *)
Definition M (A : Type) : Type := Store → result A * Store.

#[export] Instance M_ret : MRet M := λ A a s, (Ok a, s).

#[export] Instance M_bind : MBind M := λ A B f m s,
  match m s with
  | (Ok a, s') => f a s'
  | (Panic msg, s') => (Panic msg, s')
  end.

Definition readRequests : M (list RequestInfo) := λ s, (Ok (requests s), s).
Definition writeRequests (l : list RequestInfo) : M unit :=
  λ s, (Ok (), {| requests := l; nextID := nextID s |}).
Definition readNextID : M Z := λ s, (Ok (nextID s), s).
Definition writeNextID (n : Z) : M unit :=
  λ s, (Ok (), {| requests := requests s; nextID := n |}).
Definition liftResult {A : Type} (r : result A) : M A := λ s, (r, s).

(** [s[:n]]: panics when [n] is beyond the slice (the run-time checks it
    against the capacity, which is at least the length; checking against
    the length is the stricter reading). *)
Definition sliceTo {A : Type} (n : nat) (l : list A) : result (list A) :=
  if decide (n ≤ length l)%nat then Ok (take n l)
  else Panic "slice bounds out of range".

(** ** The critical sections of the handlers *)

Section CriticalSections.
Context {w : GoInt.IntSize}.

(** [webhookHandler], from [mu.Lock()] to [mu.Unlock()]:
<<
    info.ID = nextID
    nextID++
    requests = append([]RequestInfo{info}, requests...)
    if len(requests) > 100 {
        requests = requests[:100]
    }
>>
    The result is the id given to the record. *)
Definition Insert (info : RequestInfo) : M Z :=
  id ← readNextID;
  let info := setID id info in
  writeNextID (GoInt.incr id);;
  old ← readRequests;
  writeRequests ([info] ++ old);;
  cur ← readRequests;
  (if decide (100 < length cur)%nat
   then kept ← liftResult (sliceTo 100 cur); writeRequests kept
   else mret ());;
  mret id.

(** [getRequestsHandler], under [mu.RLock()]: the slice handed to the JSON
    encoder. *)
Definition Snapshot : M (list RequestInfo) := readRequests.

(** [clearRequestsHandler], from [mu.Lock()] to [mu.Unlock()]:
    [requests = []RequestInfo{}]. *)
Definition Clear : M unit := writeRequests [].

(** A serial run of critical sections; the result lists the ids the
    inserts were given, in call order. *)
Inductive Op : Type :=
| DoInsert (info : RequestInfo)
| DoSnapshot
| DoClear.

Fixpoint run (ops : list Op) : M (list Z) :=
  match ops with
  | [] => mret []
  | DoInsert info :: rest => id ← Insert info; ids ← run rest; mret (id :: ids)
  | DoSnapshot :: rest => Snapshot;; run rest
  | DoClear :: rest => Clear;; run rest
  end.

(** How many inserts a run performs. *)
Fixpoint inserts (ops : list Op) : nat :=
  match ops with
  | [] => 0
  | DoInsert _ :: rest => S (inserts rest)
  | _ :: rest => inserts rest
  end.

(** The ids that [n] successive inserts hand out when the counter stands
    at [c]: the counter's value, then [nextID++] each time. *)
Fixpoint idsFrom (c : Z) (n : nat) : list Z :=
  match n with
  | O => []
  | S n' => c :: idsFrom (GoInt.incr c) n'
  end.

End CriticalSections.

(** ** The handlers *)

(** What a handler is given of [*http.Request]. [Header] is
    [map[string][]string]; [readAll] is the outcome of [io.ReadAll(r.Body)],
    [None] when it returns an error. *)
Record Request : Type := mkRequest {
  reqMethod     : string;
  reqURL        : string;
  Header        : gmap string (list string);
  readAll       : option string;
  reqRemoteAddr : string
}.

(** What a handler wrote to its [http.ResponseWriter]. *)
Inductive Response : Type :=
| PlainText (code : Z) (msg : string)
| JSON (code : Z) (payload : list RequestInfo)
| NoBody (code : Z).

Definition StatusOK : Z := 200.
Definition StatusMethodNotAllowed : Z := 405.
Definition StatusInternalServerError : Z := 500.
Definition MethodPost : string := "POST".

(** The message of the run-time panic of [v[0]] on an empty [v]. *)
Definition indexPanic : string := "index out of range [0] with length 0".

(** The loop
<<
    for k, v := range r.Header {
        headers[k] = v[0]
    }
>>
    over the entries in the order the run-time visits them; [v[0]] panics
    on an empty [v]. *)
Fixpoint rangeHeader (entries : list (string * list string))
    (headers : gmap string string) : result (gmap string string) :=
  match entries with
  | [] => Ok headers
  | (k, v) :: rest =>
      match v !! 0%nat with
      | Some x => rangeHeader rest (<[k := x]> headers)
      | None => Panic indexPanic
      end
  end.

(** [headers := make(map[string]string)] followed by the loop. *)
Definition flattenHeaders (h : gmap string (list string)) :
    result (gmap string string) :=
  rangeHeader (map_to_list h) ∅.

(** [webhookHandler]; [now] is what [time.Now()] returns. *)
Definition webhookHandler {w : GoInt.IntSize} (now : Time) (r : Request) :
    M Response :=
  match readAll r with
  | None => mret (PlainText StatusInternalServerError "Failed to read body")
  | Some bodyBytes =>
      headers ← liftResult (flattenHeaders (Header r));
      let info := {| ID := 0; Method := reqMethod r; URL := reqURL r;
                     Headers := headers; Body := bodyBytes;
                     Timestamp := now; RemoteAddr := reqRemoteAddr r |} in
      Insert info;;
      mret (PlainText StatusOK "Webhook received")
  end.

(** [getRequestsHandler] *)
Definition getRequestsHandler (r : Request) : M Response :=
  reqs ← Snapshot;
  mret (JSON StatusOK reqs).

(** [clearRequestsHandler] *)
Definition clearRequestsHandler (r : Request) : M Response :=
  if decide (reqMethod r ≠ MethodPost)
  then mret (PlainText StatusMethodNotAllowed "Method not allowed")
  else Clear;; mret (NoBody StatusOK).

(** ** Sample data *)

Definition hook : RequestInfo :=
  {| ID := 0; Method := "POST"; URL := "/hook"; Headers := ∅; Body := "{}";
     Timestamp := 1700000000; RemoteAddr := "10.0.0.7:41000" |}.

(** A record whose body is its sequence number. *)
Definition numbered (i : nat) : RequestInfo :=
  {| ID := 0; Method := "POST"; URL := "/hook"; Headers := ∅;
     Body := pretty i; Timestamp := 1700000000 + Z.of_nat i;
     RemoteAddr := "10.0.0.7:41000" |}.

Definition sampleRequest : Request :=
  {| reqMethod := "PUT"; reqURL := "/orders?id=7";
     Header := {[ "Accept" := ["text/html"; "application/json"];
                  "X-Token" := ["abc"] ]};
     readAll := Some "payload"; reqRemoteAddr := "10.0.0.7:41000" |}.

(** A POST to the clear endpoint. *)
Definition clearRequest : Request :=
  {| reqMethod := "POST"; reqURL := "/api/clear"; Header := ∅;
     readAll := Some ""; reqRemoteAddr := "10.0.0.7:41000" |}.

(** A request whose body could not be read. *)
Definition tornRequest : Request :=
  {| reqMethod := "POST"; reqURL := "/hook";
     Header := {[ "Content-Length" := ["12"] ]};
     readAll := None; reqRemoteAddr := "10.0.0.7:41000" |}.

(** [maxInt] inserts, and one more. *)
Definition overflowingRun {w : GoInt.IntSize} : list Op :=
  replicate (Z.to_nat GoInt.maxInt) (DoInsert hook) ++ [DoInsert hook].

(** Two inserts, a snapshot, a clear and one more insert. *)
Definition sampleRun : list Op :=
  [DoInsert (numbered 1); DoInsert (numbered 2); DoSnapshot; DoClear;
   DoInsert (numbered 3)].

(** A store that holds one record, as left by one insert. *)
Definition oneRecord : Store :=
  {| requests := [setID 1 hook]; nextID := 2 |}.

(** A store whose slice is full. *)
Definition fullStore : Store :=
  {| requests := (λ i, setID (Z.of_nat i) (numbered i)) <$> reverse (seq 1 100);
     nextID := 101 |}.

(** ** Serving calls *)

(** A call of one of the three handlers that [main] registers. Which
    handler a request reaches is decided by [http.ServeMux] from the
    patterns ["/"], ["/api/requests"] and ["/api/clear"]; that choice is made
    outside [main.go] and is not modelled. *)
Inductive Call : Type :=
| CallWebhook (now : Time) (r : Request)
| CallGetRequests (r : Request)
| CallClearRequests (r : Request).

Definition handle {w : GoInt.IntSize} (c : Call) : M Response :=
  match c with
  | CallWebhook now r => webhookHandler now r
  | CallGetRequests r => getRequestsHandler r
  | CallClearRequests r => clearRequestsHandler r
  end.

(** Calls served one after the other. A handler that panics ends its own
    request only (the server recovers the panic), and the next call finds
    the store as the panicking handler left it. *)
Fixpoint serve {w : GoInt.IntSize} (calls : list Call) (s : Store) :
    list (result Response) * Store :=
  match calls with
  | [] => ([], s)
  | c :: rest =>
      let '(out, s1) := handle c s in
      let '(outs, s2) := serve rest s1 in
      (out :: outs, s2)
  end.

(** The record [webhookHandler] has built when it reaches [mu.Lock()]:
    none when the body could not be read or a header carries no value. *)
Definition recordOf (now : Time) (r : Request) : option RequestInfo :=
  match readAll r, flattenHeaders (Header r) with
  | Some bodyBytes, Ok headers =>
      Some {| ID := 0; Method := reqMethod r; URL := reqURL r;
              Headers := headers; Body := bodyBytes;
              Timestamp := now; RemoteAddr := reqRemoteAddr r |}
  | _, _ => None
  end.

(** The critical sections that a list of calls enters, in order. *)
Fixpoint opsOf (calls : list Call) : list Op :=
  match calls with
  | [] => []
  | CallWebhook now r :: rest =>
      match recordOf now r with
      | Some info => DoInsert info :: opsOf rest
      | None => opsOf rest
      end
  | CallGetRequests _ :: rest => DoSnapshot :: opsOf rest
  | CallClearRequests r :: rest =>
      if decide (reqMethod r = MethodPost) then DoClear :: opsOf rest
      else opsOf rest
  end.

(** ** Reading a run *)

(** The records a run inserts, in call order. *)
Fixpoint inserted (ops : list Op) : list RequestInfo :=
  match ops with
  | [] => []
  | DoInsert info :: rest => info :: inserted rest
  | _ :: rest => inserted rest
  end.

Definition isClear (o : Op) : bool :=
  match o with DoClear => true | _ => false end.

Definition hasClear (ops : list Op) : bool := existsb isClear ops.

(** What a run does after its last clear; the whole run when it never
    clears. *)
Fixpoint sinceLastClear (ops : list Op) : list Op :=
  match ops with
  | [] => []
  | o :: rest =>
      if hasClear rest then sinceLastClear rest
      else if isClear o then rest else o :: rest
  end.

(** A request that carries a header name without any value. *)
Definition bareHeaderRequest : Request :=
  {| reqMethod := "POST"; reqURL := "/hook";
     Header := {[ "X-Empty" := []; "Accept" := ["*/*"] ]};
     readAll := Some "{}"; reqRemoteAddr := "10.0.0.7:41000" |}.

(** The entries of [sampleRequest]'s headers, in two visiting orders. *)
Definition sampleEntries : list (string * list string) :=
  [("X-Token", ["abc"]); ("Accept", ["text/html"; "application/json"])].

(** Some traffic: two webhooks, one of them torn, a rejected and an
    accepted clear, a panicking webhook, one more webhook and a read. *)
Definition sampleCalls : list Call :=
  [CallWebhook 10 sampleRequest; CallWebhook 11 tornRequest;
   CallClearRequests sampleRequest; CallGetRequests sampleRequest;
   CallClearRequests clearRequest; CallWebhook 12 bareHeaderRequest;
   CallWebhook 13 sampleRequest; CallGetRequests sampleRequest].

(** A run with a clear in the middle. *)
Definition clearingRun : list Op :=
  [DoInsert (numbered 1); DoInsert (numbered 2); DoClear; DoSnapshot;
   DoInsert (numbered 3); DoInsert (numbered 4)].

(** A store below capacity. *)
Definition nearlyFull : Store :=
  {| requests := (λ i, setID (Z.of_nat i) (numbered i)) <$> reverse (seq 2 99);
     nextID := 101 |}.

(** ** Facts about [int] arithmetic *)

Module GoIntFacts.
Import GoInt.

Section Width.
Context {w : IntSize}.

Lemma half_pos : 0 < 2 ^ (bits w - 1).
Proof. destruct w; reflexivity. Qed.

Lemma modulus_double : 2 ^ bits w = 2 * 2 ^ (bits w - 1).
Proof. destruct w; reflexivity. Qed.

Lemma wrap_inRange z : inRange z → wrap z = z.
Proof.
  unfold inRange, wrap, minInt, maxInt. intros Hz.
  pose proof half_pos. pose proof modulus_double.
  rewrite Z.mod_small; lia.
Qed.

Lemma wrap_add_l a b : wrap (wrap a + b) = wrap (a + b).
Proof.
  unfold wrap. f_equal.
  replace ((a + 2 ^ (bits w - 1)) `mod` 2 ^ bits w - 2 ^ (bits w - 1)
           + b + 2 ^ (bits w - 1))
    with ((a + 2 ^ (bits w - 1)) `mod` 2 ^ bits w + b) by lia.
  rewrite Zplus_mod_idemp_l. f_equal. lia.
Qed.

Lemma incr_below_max x : minInt ≤ x < maxInt → incr x = x + 1.
Proof.
  intros Hx. unfold incr. apply wrap_inRange.
  unfold inRange, minInt, maxInt in *. lia.
Qed.

Lemma incr_wrap a : incr (wrap a) = wrap (a + 1).
Proof. unfold incr. apply wrap_add_l. Qed.

Lemma maxInt_pos : 1 < maxInt.
Proof. destruct w; reflexivity. Qed.

Lemma minInt_neg : minInt < 0.
Proof. destruct w; reflexivity. Qed.

Lemma minInt_maxInt : minInt = - maxInt - 1.
Proof. unfold minInt, maxInt. lia. Qed.

Lemma wrap_succ_maxInt : wrap (1 + maxInt) = minInt.
Proof. destruct w; reflexivity. Qed.

End Width.

End GoIntFacts.

(** ** Stepping through the monad *)

Ltac step_M :=
  unfold mbind, M_bind, mret, M_ret, readRequests, writeRequests,
    readNextID, writeNextID, liftResult; simpl.

Section Stepping.
Context {w : GoInt.IntSize}.

Lemma bind_Ok {A B} (m : M A) (f : A → M B) s a s' :
  m s = (Ok a, s') → (m ≫= f) s = f a s'.
Proof. intros H. unfold mbind, M_bind. by rewrite H. Qed.

Lemma sliceTo_Ok {A} n (l : list A) : (n ≤ length l)%nat → sliceTo n l = Ok (take n l).
Proof. intros H. unfold sliceTo. by rewrite decide_True. Qed.

(** The whole effect of the critical section of [webhookHandler]: it does
    not panic, hands out the counter's value, advances the counter and keeps
    the first 100 of the extended slice. *)
Lemma Insert_eq info s :
  Insert info s =
    (Ok (nextID s),
     {| requests := take 100 (setID (nextID s) info :: requests s);
        nextID := GoInt.incr (nextID s) |}).
Proof.
  unfold Insert. step_M. case_decide as Hlen.
  - step_M. rewrite sliceTo_Ok by (simpl in *; lia). done.
  - step_M. rewrite take_ge by (simpl in *; lia). done.
Qed.

Lemma Snapshot_eq s : Snapshot s = (Ok (requests s), s).
Proof. done. Qed.

Lemma Clear_eq s : Clear s = (Ok (), {| requests := []; nextID := nextID s |}).
Proof. done. Qed.

Lemma run_nil s : run [] s = (Ok [], s).
Proof. done. Qed.

Lemma run_Insert info rest s :
  run (DoInsert info :: rest) s =
    match run rest {| requests := take 100 (setID (nextID s) info :: requests s);
                      nextID := GoInt.incr (nextID s) |} with
    | (Ok ids, s') => (Ok (nextID s :: ids), s')
    | (Panic msg, s') => (Panic msg, s')
    end.
Proof.
  simpl. erewrite bind_Ok by apply Insert_eq.
  unfold mbind, M_bind. by destruct (run rest _) as [[ids|msg] s'].
Qed.

Lemma run_Snapshot rest s : run (DoSnapshot :: rest) s = run rest s.
Proof. done. Qed.

Lemma run_Clear rest s :
  run (DoClear :: rest) s = run rest {| requests := []; nextID := nextID s |}.
Proof. done. Qed.

End Stepping.

(** ** Runs of the critical sections *)

Section Runs.
Import GoInt GoIntFacts.
Context {w : IntSize}.

Lemma take_app_take {A} n (l k : list A) :
  take n (l ++ take n k) = take n (l ++ k).
Proof.
  rewrite !take_app, take_take. do 2 f_equal. lia.
Qed.

Lemma iter_incr_wrap c n :
  inRange c → Nat.iter n incr c = wrap (c + Z.of_nat n).
Proof.
  intros Hc. induction n as [|n IH].
  - simpl. rewrite Z.add_0_r. symmetry. by apply wrap_inRange.
  - rewrite Nat.iter_succ, IH, incr_wrap. f_equal. lia.
Qed.

Lemma idsFrom_length c n : length (idsFrom c n) = n.
Proof. revert c. induction n as [|n IH]; intros c; simpl; [done|]. by rewrite IH. Qed.

Lemma idsFrom_app c n m :
  idsFrom c (n + m) = idsFrom c n ++ idsFrom (Nat.iter n incr c) m.
Proof.
  revert c. induction n as [|n IH]; intros c; [done|].
  rewrite Nat.iter_succ_r. simpl. by rewrite IH.
Qed.

(** Below [maxInt] the ids are consecutive integers. *)
Lemma idsFrom_seqZ c n :
  minInt ≤ c → c + Z.of_nat n - 1 ≤ maxInt → idsFrom c n = seqZ c (Z.of_nat n).
Proof.
  revert c. induction n as [|n IH]; intros c Hlo Hhi; [done|].
  rewrite seqZ_cons by lia. cbn [idsFrom]. f_equal.
  replace (Z.pred (Z.of_nat (S n))) with (Z.of_nat n) by lia.
  destruct n as [|n]; [done|].
  rewrite incr_below_max by lia. apply IH; lia.
Qed.

Lemma inserts_app ops1 ops2 : inserts (ops1 ++ ops2) = (inserts ops1 + inserts ops2)%nat.
Proof.
  induction ops1 as [|[]]; simpl; auto.
Qed.

Lemma inserts_replicate n info : inserts (replicate n (DoInsert info)) = n.
Proof. induction n; simpl; auto. Qed.

(** No run panics; its ids and its final counter depend only on the
    number of inserts, and the bound on the slice is kept. *)
Lemma run_ids ops s :
  ∃ s', run ops s = (Ok (idsFrom (nextID s) (inserts ops)), s')
        ∧ nextID s' = Nat.iter (inserts ops) incr (nextID s)
        ∧ ((length (requests s) ≤ 100)%nat → (length (requests s') ≤ 100)%nat).
Proof.
  revert s. induction ops as [|[info| |] rest IH]; intros s.
  - by exists s.
  - rewrite run_Insert.
    destruct (IH {| requests := take 100 (setID (nextID s) info :: requests s);
                    nextID := incr (nextID s) |}) as (s' & -> & Hn & Hlen).
    exists s'. split_and!; [done| |].
    + cbn [inserts]. by rewrite Nat.iter_succ_r.
    + intros _. apply Hlen. cbn [requests]. rewrite length_take. lia.
  - rewrite run_Snapshot. apply IH.
  - rewrite run_Clear.
    destruct (IH {| requests := []; nextID := nextID s |}) as (s' & -> & Hn & Hlen).
    exists s'. split_and!; [done..|]. intros _. apply Hlen. simpl. lia.
Qed.

(** A run of inserts alone: the slice holds the records in reverse call
    order, each with the id it was given, cut to the first 100. *)
Lemma run_inserts rs s :
  (length (requests s) ≤ 100)%nat →
  run (DoInsert <$> rs) s =
    (Ok (idsFrom (nextID s) (length rs)),
     {| requests :=
          take 100 (reverse (zip_with setID (idsFrom (nextID s) (length rs)) rs)
                    ++ requests s);
        nextID := Nat.iter (length rs) incr (nextID s) |}).
Proof.
  revert s. induction rs as [|r rs IH]; intros s Hs.
  - destruct s as [reqs n]. simpl in *. by rewrite take_ge.
  - rewrite fmap_cons, run_Insert.
    rewrite IH by (cbn [requests]; rewrite length_take; lia).
    cbn [requests nextID length idsFrom zip_with].
    rewrite reverse_cons, <- app_assoc, take_app_take, Nat.iter_succ_r.
    done.
Qed.

End Runs.

(** ** Properties of the capture log *)

Section Log.
Import GoInt GoIntFacts.
Context {w : IntSize}.

(** From the initial store, a run of inserts leaves the records in
    reverse call order, cut to 100. *)
Lemma run_inserts_initial rs :
  run (DoInsert <$> rs) initial =
    (Ok (idsFrom 1 (length rs)),
     {| requests := take 100 (reverse (zip_with setID (idsFrom 1 (length rs)) rs));
        nextID := Nat.iter (length rs) incr 1 |}).
Proof.
  rewrite run_inserts by (simpl; lia). cbn [initial requests nextID].
  by rewrite app_nil_r.
Qed.

Lemma stamped_length rs c : length (zip_with setID (idsFrom c (length rs)) rs) = length rs.
Proof. rewrite length_zip_with, idsFrom_length. lia. Qed.

(** C1. Capacity invariant: after N serial inserts into the initial
    (empty) store, with no clear in between, the snapshot holds
    min(N, 100) records; whatever the store, the slice holds at most 100
    records after an insert; and so it does after every serial run from
    the initial store. *)
Theorem capacity_invariant :
  (∀ rs : list RequestInfo,
     ∃ ids s snap,
       run (DoInsert <$> rs) initial = (Ok ids, s)
       ∧ Snapshot s = (Ok snap, s)
       ∧ length snap = Nat.min (length rs) 100)
  ∧ (∀ (info : RequestInfo) (s : Store),
       ∃ id s', Insert info s = (Ok id, s')
                ∧ (length (requests s') ≤ 100)%nat)
  ∧ (∀ ops : list Op,
       ∃ ids s, run ops initial = (Ok ids, s)
                ∧ (length (requests s) ≤ 100)%nat).
Proof.
  split_and!.
  - intros rs. eexists _, _, _. split; [apply run_inserts_initial|].
    split; [apply Snapshot_eq|]. cbn [requests].
    rewrite length_take, length_reverse, stamped_length. lia.
  - intros info s. eexists _, _. split; [apply Insert_eq|].
    cbn [requests]. rewrite length_take. lia.
  - intros ops. destruct (run_ids ops initial) as (s & Hrun & _ & Hlen).
    eexists _, s. split; [exact Hrun|]. apply Hlen. simpl. lia.
Qed.

(** C2. Newest-first ordering and immutability: after serial inserts of
    R1, ..., Rn into the initial store, the snapshot is the reversed call
    sequence cut to 100, each record carrying the id its insert returned;
    the record at index k is the (n-k)-th inserted one, and apart from
    [ID] every field is as it was handed to the insert. *)
Theorem newest_first_ordering (rs : list RequestInfo) :
  ∃ ids s snap,
    run (DoInsert <$> rs) initial = (Ok ids, s)
    ∧ Snapshot s = (Ok snap, s)
    ∧ length ids = length rs
    ∧ snap = take 100 (reverse (zip_with setID ids rs))
    ∧ (∀ r id, last rs = Some r → last ids = Some id →
         snap !! 0%nat = Some (setID id r))
    ∧ (∀ k : nat, (k < length snap)%nat →
         ∃ r id x,
           rs !! (length rs - S k)%nat = Some r
           ∧ ids !! (length rs - S k)%nat = Some id
           ∧ snap !! k = Some x
           ∧ ID x = id ∧ Method x = Method r ∧ URL x = URL r
           ∧ Headers x = Headers r ∧ Body x = Body r
           ∧ Timestamp x = Timestamp r ∧ RemoteAddr x = RemoteAddr r).
Proof.
  eexists _, _, _. split; [apply run_inserts_initial|].
  split; [apply Snapshot_eq|]. cbn [requests].
  set (ids := idsFrom 1 (length rs)).
  assert (Hids : length ids = length rs) by apply idsFrom_length.
  assert (Hz : length (zip_with setID ids rs) = length rs) by apply stamped_length.
  split_and!; [done|done| |].
  - intros r id Hr Hid.
    rewrite last_lookup in Hr. rewrite last_lookup, Hids in Hid.
    assert (0 < length rs)%nat as Hpos.
    { destruct rs; [done|simpl; lia]. }
    rewrite lookup_take_lt by lia.
    rewrite reverse_lookup by lia. rewrite Hz, lookup_zip_with.
    replace (length rs - 1)%nat with (Init.Nat.pred (length rs)) by lia.
    by rewrite Hid, Hr.
  - intros k Hk. rewrite length_take, length_reverse, Hz in Hk.
    destruct (lookup_lt_is_Some_2 rs (length rs - S k)) as [r Hr]; [lia|].
    destruct (lookup_lt_is_Some_2 ids (length rs - S k)) as [id Hid]; [lia|].
    exists r, id, (setID id r). split_and!; try done.
    rewrite lookup_take_lt by lia.
    rewrite reverse_lookup by lia. rewrite Hz, lookup_zip_with.
    by rewrite Hid, Hr.
Qed.

Lemma StronglySorted_seqZ m n : StronglySorted Z.lt (seqZ m (Z.of_nat n)).
Proof.
  revert m. induction n as [|n IH]; intros m; [constructor|].
  rewrite seqZ_cons by lia.
  replace (Z.pred (Z.of_nat (S n))) with (Z.of_nat n) by lia.
  constructor; [apply IH|]. apply Forall_seqZ. lia.
Qed.

(** With [N = maxInt] the run [replicate N (DoInsert info) ++ [DoInsert info]]
    hands out 1, ..., [maxInt] and then [minInt]. *)
Lemma run_past_maxInt (N : nat) info :
  Z.of_nat N = maxInt →
  ∃ s, run (replicate N (DoInsert info) ++ [DoInsert info]) initial
       = (Ok (seqZ 1 maxInt ++ [minInt]), s).
Proof.
  intros HN.
  destruct (run_ids (replicate N (DoInsert info) ++ [DoInsert info]) initial)
    as (s & Hrun & _ & _).
  exists s. rewrite Hrun. do 2 f_equal.
  rewrite inserts_app, inserts_replicate. cbn [inserts initial nextID].
  rewrite idsFrom_app.
  rewrite idsFrom_seqZ by (pose proof minInt_neg; lia).
  rewrite iter_incr_wrap
    by (unfold inRange; pose proof minInt_neg; pose proof maxInt_pos; lia).
  rewrite HN, wrap_succ_maxInt. reflexivity.
Qed.

(** The run of [maxInt + 1] inserts from the initial store is given the
    ids 1, ..., [maxInt] and then [minInt], which is negative and below
    every id handed out before it. *)
Lemma overflowingRun_ids :
  ∃ ids s,
    run overflowingRun initial = (Ok ids, s)
    ∧ ids = seqZ 1 maxInt ++ [minInt]
    ∧ ¬ Forall (λ i, 0 < i) ids
    ∧ ¬ StronglySorted Z.lt ids.
Proof.
  destruct (run_past_maxInt (Z.to_nat maxInt) hook) as [s Hs].
  { apply Z2Nat.id. pose proof maxInt_pos. lia. }
  exists (seqZ 1 maxInt ++ [minInt]), s. split; [exact Hs|]. clear Hs.
  split; [reflexivity|]. split.
  - rewrite Forall_app, Forall_singleton. intros [_ Hpos].
    pose proof minInt_neg. lia.
  - intros Hsorted.
    assert (1 < minInt) as Hlt.
    { eapply (StronglySorted_app_1_elem_of Z.lt); [exact Hsorted| |].
      - apply elem_of_seqZ. pose proof maxInt_pos. lia.
      - apply list_elem_of_singleton. reflexivity. }
    pose proof minInt_neg. lia.
Qed.

(** The insert that finds the counter at [maxInt] hands out [maxInt] and
    leaves the counter at [minInt]. *)
Lemma Insert_at_maxInt info reqs :
  ∃ s', Insert info {| requests := reqs; nextID := maxInt |} = (Ok maxInt, s')
        ∧ nextID s' = minInt.
Proof.
  eexists. split; [apply Insert_eq|]. cbn [nextID].
  unfold incr. rewrite Z.add_comm. apply wrap_succ_maxInt.
Qed.

(** A run without inserts leaves [requests] as it was, or empty. *)
Lemma run_without_inserts ops s :
  inserts ops = 0%nat →
  ∃ s', run ops s = (Ok [], s')
        ∧ (∀ i x, requests s' !! i = Some x → requests s !! i = Some x)
        ∧ (length (requests s') ≤ length (requests s))%nat.
Proof.
  revert s. induction ops as [|[info| |] rest IH]; intros s Hn.
  - by exists s.
  - done.
  - rewrite run_Snapshot. by apply IH.
  - rewrite run_Clear.
    destruct (IH {| requests := []; nextID := nextID s |} Hn)
      as (s' & Hrun & Hidx & Hlen).
    exists s'. split; [done|]. cbn [requests] in Hidx, Hlen. split.
    + intros i x Hx. by apply Hidx in Hx.
    + simpl in Hlen. lia.
Qed.

(** Every record in [requests] carries the id its insert was given: as
    long as the inserts of a run are given ids up to [maxInt], the record
    at index i carries the last id handed out minus i. *)
Lemma run_stamps ops s :
  minInt ≤ nextID s →
  nextID s + Z.of_nat (inserts ops) - 1 ≤ maxInt →
  (∀ i x, requests s !! i = Some x → ID x = nextID s - 1 - Z.of_nat i) →
  ∃ s', run ops s = (Ok (idsFrom (nextID s) (inserts ops)), s')
        ∧ (∀ i x, requests s' !! i = Some x →
             ID x = nextID s + Z.of_nat (inserts ops) - 1 - Z.of_nat i)
        ∧ (length (requests s') ≤ length (requests s) + inserts ops)%nat.
Proof.
  revert s. induction ops as [|[info| |] rest IH]; intros s Hlo Hhi Hidx.
  - exists s. simpl. split_and!; [done| |lia].
    intros i x Hx. apply Hidx in Hx. lia.
  - cbn [inserts] in Hhi. rewrite run_Insert.
    assert (∀ i x,
              take 100 (setID (nextID s) info :: requests s) !! i = Some x →
              ID x = nextID s - Z.of_nat i) as Hidx1.
    { intros i x [Hx Hi]%lookup_take_Some.
      destruct i as [|i]; simpl in Hx.
      - injection Hx as <-. simpl. lia.
      - apply Hidx in Hx. lia. }
    assert (length (take 100 (setID (nextID s) info :: requests s))
            ≤ S (length (requests s)))%nat as Hlen1.
    { rewrite length_take. cbn [length]. lia. }
    destruct (inserts rest) as [|m] eqn:Hrest.
    + destruct (run_without_inserts rest
                  {| requests := take 100 (setID (nextID s) info :: requests s);
                     nextID := incr (nextID s) |} Hrest)
        as (s' & -> & Hsub & Hlen).
      cbn [requests] in Hsub, Hlen.
      exists s'. cbn [inserts]. rewrite Hrest. split_and!; [done| |lia].
      intros i x Hx. apply Hsub, Hidx1 in Hx. lia.
    + assert (incr (nextID s) = nextID s + 1) as Hincr
        by (apply incr_below_max; lia).
      destruct (IH {| requests := take 100 (setID (nextID s) info :: requests s);
                      nextID := incr (nextID s) |})
        as (s' & -> & Hidx' & Hlen'); cbn [requests nextID].
      * rewrite Hincr. lia.
      * rewrite Hincr. lia.
      * rewrite Hincr. intros i x Hx. apply Hidx1 in Hx. lia.
      * cbn [requests nextID] in Hidx', Hlen'. rewrite Hincr in Hidx'.
        exists s'. cbn [inserts]. rewrite ?Hrest. split_and!; [done| |lia].
        intros i x Hx. apply Hidx' in Hx. lia.
  - rewrite run_Snapshot. by apply IH.
  - rewrite run_Clear.
    destruct (IH {| requests := []; nextID := nextID s |})
      as (s' & -> & Hidx' & Hlen'); cbn [requests nextID]; try done.
    cbn [requests nextID] in Hidx', Hlen'. exists s'.
    split_and!; [done|done|]. simpl in Hlen'. cbn [inserts]. lia.
Qed.

(** C3 (amended). The counter starts at 1. Every insert, whatever the
    store, stamps the counter's value on the record as its [ID], stores
    that record at the front of [requests], returns the value, and replaces
    the counter by its [int] successor, which is the value plus one as
    long as the counter is below [maxInt]. Hence in a run from the initial
    store that holds at most [maxInt] inserts, with any snapshots and
    clears in between, the ids are 1, 2, 3, ... in call order: strictly
    increasing, positive and never repeated; and the record at index i of
    [requests] carries as its [ID] the id of the i-th most recent
    insert. *)
Theorem id_assignment :
  nextID initial = 1
  ∧ (∀ (info : RequestInfo) (s : Store),
       ∃ s' x,
         Insert info s = (Ok (nextID s), s')
         ∧ requests s' !! 0%nat = Some x
         ∧ x = setID (nextID s) info
         ∧ ID x = nextID s
         ∧ nextID s' = incr (nextID s)
         ∧ (minInt ≤ nextID s < maxInt → nextID s' = nextID s + 1))
  ∧ (∀ ops : list Op,
       Z.of_nat (inserts ops) ≤ maxInt →
       ∃ ids s,
         run ops initial = (Ok ids, s)
         ∧ ids = seqZ 1 (Z.of_nat (inserts ops))
         ∧ nextID s = wrap (1 + Z.of_nat (inserts ops))
         ∧ StronglySorted Z.lt ids
         ∧ NoDup ids
         ∧ Forall (λ i, 1 ≤ i) ids
         ∧ (∀ (i : nat) (x : RequestInfo),
              requests s !! i = Some x →
              ID x = Z.of_nat (inserts ops) - Z.of_nat i
              ∧ ids !! (inserts ops - S i)%nat = Some (ID x))).
Proof.
  split_and!; [done| |].
  - intros info s. eexists _, _. split; [apply Insert_eq|].
    cbn [nextID requests]. split; [reflexivity|].
    split_and!; [done|done|done|]. apply incr_below_max.
  - intros ops Hn.
    destruct (run_ids ops initial) as (s & Hrun & Hnext & _).
    destruct (run_stamps ops initial) as (s0 & Hrun0 & Hidx & Hlen);
      cbn [initial requests nextID] in *.
    { pose proof minInt_neg. lia. }
    { lia. }
    { done. }
    assert (s0 = s) as -> by congruence. clear Hrun0.
    rewrite idsFrom_seqZ in Hrun by (pose proof minInt_neg; lia).
    rewrite iter_incr_wrap in Hnext
      by (unfold inRange; pose proof minInt_neg; pose proof maxInt_pos; lia).
    eexists _, s. split; [exact Hrun|].
    split_and!; [done|done|apply StronglySorted_seqZ|apply NoDup_seqZ| |].
    + apply Forall_seqZ. lia.
    + intros i x Hx. pose proof (lookup_lt_Some _ _ _ Hx) as Hi.
      simpl in Hlen. rewrite (Hidx i x Hx). split; [lia|].
      rewrite lookup_seqZ_lt by lia. f_equal. lia.
Qed.

Lemma take_full_cons {A} (x oldest : A) kept :
  length kept = 99%nat → take 100 (x :: kept ++ [oldest]) = x :: kept.
Proof.
  intros Hlen. change (take 100 (x :: kept ++ [oldest]))
    with (x :: take 99 (kept ++ [oldest])).
  rewrite take_app_le by lia. by rewrite take_ge by lia.
Qed.

(** C4. Eviction order: after more than 100 serial inserts into the
    initial store the slice holds exactly the 100 most recently inserted
    records, newest first; an insert into a full slice drops its last
    element and nothing else, and in a run of inserts that element is the
    earliest inserted of the records present; and after 150 inserts the
    snapshot has 100 elements, the first with id 150 and the last with
    id 51. *)
Theorem eviction_order :
  (∀ rs : list RequestInfo,
     (100 < length rs)%nat →
     ∃ ids s,
       run (DoInsert <$> rs) initial = (Ok ids, s)
       ∧ length ids = length rs
       ∧ length (requests s) = 100%nat
       ∧ requests s
         = reverse (drop (length rs - 100) (zip_with setID ids rs)))
  ∧ (∀ (info : RequestInfo) (s : Store),
       length (requests s) = 100%nat →
       ∃ kept oldest s',
         requests s = kept ++ [oldest]
         ∧ Insert info s = (Ok (nextID s), s')
         ∧ requests s' = setID (nextID s) info :: kept)
  ∧ (∀ (rs : list RequestInfo) (info : RequestInfo),
       (100 ≤ length rs)%nat →
       ∃ ids s kept oldest s',
         run (DoInsert <$> rs) initial = (Ok ids, s)
         ∧ requests s = kept ++ [oldest]
         ∧ zip_with setID ids rs !! (length rs - 100)%nat = Some oldest
         ∧ Insert info s = (Ok (nextID s), s')
         ∧ requests s' = setID (nextID s) info :: kept)
  ∧ (∃ ids s snap,
       run (DoInsert <$> (numbered <$> seq 1 150)) initial = (Ok ids, s)
       ∧ Snapshot s = (Ok snap, s)
       ∧ length snap = 100%nat
       ∧ ID <$> snap !! 0%nat = Some 150
       ∧ ID <$> snap !! 99%nat = Some 51).
Proof.
  split_and!.
  - intros rs Hlen. eexists _, _. split; [apply run_inserts_initial|].
    cbn [requests]. rewrite idsFrom_length. split; [done|].
    rewrite take_reverse, stamped_length. split; [|done].
    rewrite length_reverse, length_drop, stamped_length. lia.
  - intros info s Hlen.
    destruct (requests s) as [|x l] eqn:Hreq using rev_ind; [done|].
    clear IHl. rewrite length_app in Hlen. simpl in Hlen.
    exists l, x. eexists. split; [done|]. split; [apply Insert_eq|].
    cbn [requests]. rewrite Hreq. apply take_full_cons. lia.
  - intros rs info Hlen.
    pose proof (run_inserts_initial rs) as Hrun.
    pose proof (stamped_length rs 1) as Hz.
    rewrite take_reverse, Hz in Hrun.
    destruct (drop (length rs - 100) (zip_with setID (idsFrom 1 (length rs)) rs))
      as [|oldest tl] eqn:Hdrop.
    { apply (f_equal length) in Hdrop. rewrite length_drop, Hz in Hdrop.
      simpl in Hdrop. lia. }
    assert (length tl = 99%nat) as Htl.
    { apply (f_equal length) in Hdrop. rewrite length_drop, Hz in Hdrop.
      simpl in Hdrop. lia. }
    rewrite reverse_cons in Hrun.
    eexists _, _, (reverse tl), oldest, _.
    split; [exact Hrun|]. cbn [requests nextID]. split; [done|]. split.
    { rewrite <- (Nat.add_0_r (length rs - 100)), <- lookup_drop.
      by rewrite Hdrop. }
    split; [apply Insert_eq|]. cbn [requests nextID].
    apply take_full_cons. by rewrite length_reverse.
  - destruct w; eexists _, _, _; (split; [vm_compute; reflexivity|]);
      (split; [reflexivity|]); by vm_compute.
Qed.

(** C5. Clear empties and is idempotent: whatever the store, a snapshot
    taken after a clear is the empty sequence, and two clears in a row
    leave the same store (and result) as one. *)
Theorem clear_empties_and_is_idempotent :
  (∀ s : Store,
     ∃ s', (Clear;; Snapshot) s = (Ok [], s') ∧ requests s' = [])
  ∧ (∀ s : Store, (Clear;; Clear) s = Clear s).
Proof.
  split; intros s; [eexists; split|]; reflexivity.
Qed.

(** C6. Clear leaves the id counter alone: it changes [requests] only,
    so the insert after a clear is given the id it would have been given
    without the clear; after three inserts into the initial store and a
    clear, the next insert is given id 4. *)
Theorem clear_keeps_counter :
  (∀ s : Store,
     ∃ s', Clear s = (Ok (), s') ∧ nextID s' = nextID s ∧ requests s' = [])
  ∧ (∀ (info : RequestInfo) (s : Store),
       ∃ s', (Clear;; Insert info) s = (Ok (nextID s), s')
             ∧ requests s' = [setID (nextID s) info])
  ∧ (∀ a b c d : RequestInfo,
       ∃ s', run [DoInsert a; DoInsert b; DoInsert c; DoClear; DoInsert d]
               initial = (Ok [1; 2; 3; 4], s')
             ∧ requests s' = [setID 4 d]).
Proof.
  split_and!.
  - intros s. eexists. split; [apply Clear_eq|]. done.
  - intros info s. erewrite bind_Ok by apply Clear_eq.
    rewrite Insert_eq. eexists. split; reflexivity.
  - intros a b c d. rewrite !run_Insert, run_Clear, run_Insert, run_nil.
    destruct w; eexists; split; reflexivity.
Qed.

(** C8. Totality of the core operations: whatever the record and the
    store, the insert does not panic and returns the id it assigned,
    also when the slice is full: the new record is kept at the front and
    the extended slice is cut to its first 100 elements, so that it never
    holds more than 100 records and a full slice stays full; the snapshot
    and the clear do not panic either, so every serial run of the three
    completes, and so do the two handlers that serve the snapshot and the
    clear. *)
Theorem core_operations_total :
  (∀ (info : RequestInfo) (s : Store),
     ∃ s', Insert info s = (Ok (nextID s), s')
           ∧ requests s' !! 0%nat = Some (setID (nextID s) info)
           ∧ requests s' = take 100 (setID (nextID s) info :: requests s)
           ∧ (length (requests s') ≤ 100)%nat
           ∧ ((100 ≤ length (requests s))%nat →
                length (requests s') = 100%nat))
  ∧ (∀ s : Store, ∃ snap, Snapshot s = (Ok snap, s))
  ∧ (∀ s : Store, ∃ s', Clear s = (Ok (), s'))
  ∧ (∀ (ops : list Op) (s : Store), ∃ ids s', run ops s = (Ok ids, s'))
  ∧ (∀ (r : Request) (s : Store),
       (∃ resp s', getRequestsHandler r s = (Ok resp, s'))
       ∧ (∃ resp s', clearRequestsHandler r s = (Ok resp, s'))).
Proof.
  split_and!.
  - intros info s. eexists. split; [apply Insert_eq|]. cbn [requests].
    split; [reflexivity|]. split; [reflexivity|].
    rewrite length_take. cbn [length]. split; [lia|]. intros Hfull. lia.
  - intros s. eexists. apply Snapshot_eq.
  - intros s. eexists. apply Clear_eq.
  - intros ops s. destruct (run_ids ops s) as (s' & Hrun & _).
    eexists _, s'. exact Hrun.
  - intros r s. split; [by eexists _, _|].
    unfold clearRequestsHandler. case_decide; by eexists _, _.
Qed.

(** C9. The clear endpoint under a method other than POST replies 405
    Method Not Allowed and leaves [requests] and [nextID] as they were;
    under POST it replies 200 and empties [requests], keeping [nextID]. *)
Theorem clear_requires_post (r : Request) (s : Store) :
  (reqMethod r ≠ MethodPost →
     clearRequestsHandler r s
     = (Ok (PlainText StatusMethodNotAllowed "Method not allowed"), s))
  ∧ (reqMethod r = MethodPost →
       clearRequestsHandler r s
       = (Ok (NoBody StatusOK), {| requests := []; nextID := nextID s |})).
Proof.
  unfold clearRequestsHandler. split; intros Hm.
  - by rewrite decide_True.
  - by rewrite decide_False by (intros Hne; by apply Hne).
Qed.

(** C10. The snapshot only reads: it returns [requests] and leaves the
    store, slice and counter, as it was, so two snapshots in a row return
    the same sequence; the same holds for the handler that serves it. *)
Theorem snapshot_is_pure_reader :
  (∀ s : Store, Snapshot s = (Ok (requests s), s))
  ∧ (∀ s : Store,
       (a ← Snapshot; b ← Snapshot; mret (a, b)) s
       = (Ok (requests s, requests s), s))
  ∧ (∀ (r : Request) (s : Store),
       getRequestsHandler r s = (Ok (JSON StatusOK (requests s)), s)).
Proof.
  split_and!; intros; reflexivity.
Qed.

End Log.

(** ** The webhook handler and its headers *)

Section Headers.
Context {w : GoInt.IntSize}.

(** What the loop leaves in [headers] when it completes: each visited
    name is bound to the first value of its list, the other names are as
    before. *)
Lemma rangeHeader_lookup entries acc m :
  NoDup (entries.*1) →
  rangeHeader entries acc = Ok m →
  ∀ k, m !! k =
       match (list_to_map entries : gmap string (list string)) !! k with
       | Some v => head v
       | None => acc !! k
       end.
Proof.
  revert acc. induction entries as [|[k0 v0] rest IH]; intros acc Hnd Hrun k.
  - simpl in Hrun. injection Hrun as <-. simpl. by rewrite lookup_empty.
  - simpl in Hrun. rewrite fmap_cons in Hnd. apply NoDup_cons in Hnd as [Hk0 Hnd].
    destruct v0 as [|x v0]; [done|]. simpl in Hrun.
    rewrite (IH _ Hnd Hrun k). simpl.
    destruct (decide (k = k0)) as [->|Hne].
    + rewrite lookup_insert_eq.
      rewrite (proj1 (not_elem_of_list_to_map _ _) Hk0).
      by rewrite lookup_insert_eq.
    + rewrite (lookup_insert_ne (list_to_map rest)) by done.
      destruct (list_to_map rest !! k); [done|].
      by rewrite lookup_insert_ne.
Qed.

(** The loop completes exactly when no visited list is empty. *)
Lemma rangeHeader_Ok entries acc :
  Forall (λ kv, kv.2 ≠ []) entries → ∃ m, rangeHeader entries acc = Ok m.
Proof.
  revert acc. induction entries as [|[k0 v0] rest IH]; intros acc Hne.
  - by exists acc.
  - apply Forall_cons in Hne as [Hv0 Hne]. destruct v0 as [|x v0]; [done|].
    simpl. apply IH, Hne.
Qed.

Lemma rangeHeader_nonempty entries acc m :
  rangeHeader entries acc = Ok m → Forall (λ kv, kv.2 ≠ []) entries.
Proof.
  revert acc. induction entries as [|[k0 v0] rest IH]; intros acc Hrun.
  - constructor.
  - destruct v0 as [|x v0]; [done|]. simpl in Hrun.
    constructor; [done|]. by eapply IH.
Qed.

Lemma rangeHeader_Panic entries acc msg :
  rangeHeader entries acc = Panic msg → msg = indexPanic.
Proof.
  revert acc. induction entries as [|[k0 v0] rest IH]; intros acc Hrun.
  - done.
  - destruct v0 as [|x v0]; simpl in Hrun.
    + by injection Hrun as <-.
    + by eapply IH.
Qed.

Lemma flattenHeaders_lookup h m :
  flattenHeaders h = Ok m → ∀ k, m !! k = h !! k ≫= head.
Proof.
  intros Hrun k. unfold flattenHeaders in Hrun.
  rewrite (rangeHeader_lookup _ _ _ (NoDup_fst_map_to_list h) Hrun k).
  rewrite list_to_map_to_list. by destruct (h !! k).
Qed.

Lemma flattenHeaders_nonempty h m :
  flattenHeaders h = Ok m → ∀ k v, h !! k = Some v → v ≠ [].
Proof.
  intros Hrun k v Hkv. apply rangeHeader_nonempty in Hrun.
  rewrite Forall_forall in Hrun.
  apply (Hrun (k, v)). by apply elem_of_map_to_list.
Qed.

Lemma flattenHeaders_Ok h :
  (∀ k v, h !! k = Some v → v ≠ []) → ∃ m, flattenHeaders h = Ok m.
Proof.
  intros Hne. apply rangeHeader_Ok. apply Forall_forall.
  intros [k v] Hin. apply (Hne k). by apply elem_of_map_to_list.
Qed.

(** The order in which the run-time visits the entries of the map does
    not show in the result. *)
Lemma rangeHeader_order h entries :
  entries ≡ₚ map_to_list h → rangeHeader entries ∅ = flattenHeaders h.
Proof.
  intros Hperm.
  assert (NoDup (entries.*1)) as Hnd.
  { rewrite Hperm. apply NoDup_fst_map_to_list. }
  assert (list_to_map entries = h) as Hmap.
  { rewrite <- (list_to_map_to_list h). by apply list_to_map_proper. }
  destruct (rangeHeader entries ∅) as [m|msg] eqn:Hrun;
    destruct (flattenHeaders h) as [m'|msg'] eqn:Hflat.
  - f_equal. apply map_eq. intros k.
    rewrite (rangeHeader_lookup _ _ _ Hnd Hrun k), Hmap.
    rewrite (flattenHeaders_lookup _ _ Hflat k). by destruct (h !! k).
  - apply rangeHeader_nonempty in Hrun. rewrite Hperm in Hrun.
    destruct (rangeHeader_Ok _ ∅ Hrun) as [m' Hm'].
    unfold flattenHeaders in Hflat. congruence.
  - apply rangeHeader_nonempty in Hflat. rewrite <- Hperm in Hflat.
    destruct (rangeHeader_Ok _ ∅ Hflat) as [m0 Hm0]. congruence.
  - apply rangeHeader_Panic in Hrun, Hflat. congruence.
Qed.

(** C7. Header flattening: whenever [webhookHandler] stores a record
    (it replies 200), the record sits at the front of [requests] and its
    [Headers] binds each header name of the request to the first value
    of that header and binds no other name; the handler does store a
    record for every request whose body could be read and whose headers
    each carry a value; and when it does not reply 200 the store is as it
    was. *)
Theorem header_flattening (now : Time) (r : Request) (s : Store) :
  (∀ resp s',
     webhookHandler now r s = (Ok resp, s') →
     resp = PlainText StatusOK "Webhook received" →
     ∃ info,
       requests s' !! 0%nat = Some info
       ∧ ID info = nextID s
       ∧ (∀ k, Headers info !! k = Header r !! k ≫= head)
       ∧ (∀ k v, Header r !! k = Some v →
            ∃ x, v !! 0%nat = Some x ∧ Headers info !! k = Some x))
  ∧ (∀ body,
       readAll r = Some body →
       (∀ k v, Header r !! k = Some v → v ≠ []) →
       ∃ s', webhookHandler now r s
             = (Ok (PlainText StatusOK "Webhook received"), s'))
  ∧ (∀ out s',
       webhookHandler now r s = (out, s') →
       out ≠ Ok (PlainText StatusOK "Webhook received") →
       s' = s).
Proof.
  unfold webhookHandler. split_and!.
  - intros resp s' Hrun Hresp.
    destruct (readAll r) as [body|].
    2:{ injection Hrun as <- <-. discriminate. }
    destruct (flattenHeaders (Header r)) as [headers|msg] eqn:Hflat.
    2:{ unfold mbind, M_bind, liftResult in Hrun. done. }
    erewrite bind_Ok in Hrun by reflexivity.
    erewrite bind_Ok in Hrun by apply Insert_eq.
    injection Hrun as _ <-. eexists. split; [reflexivity|].
    cbn [ID Headers setID]. split; [done|].
    split; [by apply flattenHeaders_lookup|].
    intros k v Hkv. rewrite (flattenHeaders_lookup _ _ Hflat k), Hkv.
    pose proof (flattenHeaders_nonempty _ _ Hflat k v Hkv).
    destruct v as [|x v]; [done|]. by exists x.
  - intros body -> Hne.
    destruct (flattenHeaders_Ok _ Hne) as [headers Hflat]. rewrite Hflat.
    erewrite bind_Ok by reflexivity.
    erewrite bind_Ok by apply Insert_eq.
    eexists. reflexivity.
  - intros out s' Hrun Hout.
    destruct (readAll r) as [body|].
    2:{ by injection Hrun as <- <-. }
    destruct (flattenHeaders (Header r)) as [headers|msg] eqn:Hflat.
    + erewrite bind_Ok in Hrun by reflexivity.
      erewrite bind_Ok in Hrun by apply Insert_eq.
      injection Hrun as <- <-. done.
    + unfold mbind, M_bind, liftResult in Hrun. by injection Hrun as <- <-.
Qed.

End Headers.

(** ** On the two build targets *)

Section Targets.
Import GoInt GoIntFacts.

(** C3, as stated, fails once the counter has reached the largest [int]:
    with 32-bit [int] the run of 2^31 inserts from the initial store is
    given the ids 1, ..., 2147483647 and then -2147483648; with 64-bit
    [int] the run of 2^63 inserts is given 1, ..., 9223372036854775807 and
    then -9223372036854775808. The last id is not positive and the ids are
    not increasing. *)
Lemma ids_wrap_past_maxInt :
  (∃ ids s,
     run (w:=Int32) (overflowingRun (w:=Int32)) initial = (Ok ids, s)
     ∧ ids = seqZ 1 2147483647 ++ [-2147483648]
     ∧ ¬ Forall (λ i, 0 < i) ids
     ∧ ¬ StronglySorted Z.lt ids)
  ∧ (∃ ids s,
       run (w:=Int64) (overflowingRun (w:=Int64)) initial = (Ok ids, s)
       ∧ ids = seqZ 1 9223372036854775807 ++ [-9223372036854775808]
       ∧ ¬ Forall (λ i, 0 < i) ids
       ∧ ¬ StronglySorted Z.lt ids).
Proof.
  split.
  - exact (overflowingRun_ids (w:=Int32)).
  - exact (overflowingRun_ids (w:=Int64)).
Qed.

(** The theorems above at concrete inputs, on a 64-bit target. *)

Lemma newest_first_ordering_witness :
  ∃ ids s snap,
    run (w:=Int64) (DoInsert <$> (numbered <$> seq 1 3)) initial = (Ok ids, s)
    ∧ Snapshot s = (Ok snap, s)
    ∧ (0 < length snap)%nat
    ∧ snap !! 0%nat = Some (setID 3 (numbered 3))
    ∧ ∃ r id x,
        (numbered <$> seq 1 3) !! 0%nat = Some r
        ∧ ids !! 0%nat = Some id
        ∧ snap !! 2%nat = Some x
        ∧ ID x = id ∧ Method x = Method r ∧ URL x = URL r
        ∧ Headers x = Headers r ∧ Body x = Body r
        ∧ Timestamp x = Timestamp r ∧ RemoteAddr x = RemoteAddr r.
Proof.
  destruct (newest_first_ordering (w:=Int64) (numbered <$> seq 1 3))
    as (ids & s & snap & Hrun & Hsnap & Hlen & Heq & Hhead & Hall).
  assert (ids = [1; 2; 3]) as Hids.
  { vm_compute in Hrun. by injection Hrun as <- _. }
  assert (length snap = 3%nat) as Hl.
  { rewrite Heq, Hids. reflexivity. }
  exists ids, s, snap. split; [exact Hrun|]. split; [exact Hsnap|].
  split; [lia|]. split.
  - apply Hhead; [reflexivity|by rewrite Hids].
  - apply (Hall 2%nat). lia.
Defined.

Lemma id_assignment_witness :
  (minInt (w:=Int64) ≤ nextID oneRecord < maxInt (w:=Int64)
   ∧ ∃ s' x, Insert (w:=Int64) hook oneRecord = (Ok 2, s')
             ∧ requests s' !! 0%nat = Some x
             ∧ ID x = 2
             ∧ nextID s' = 3)
  ∧ (Z.of_nat (inserts sampleRun) ≤ maxInt (w:=Int64)
     ∧ ∃ ids s,
         run (w:=Int64) sampleRun initial = (Ok ids, s)
         ∧ ids = [1; 2; 3]
         ∧ nextID s = 4
         ∧ StronglySorted Z.lt ids
         ∧ NoDup ids
         ∧ Forall (λ i, 1 ≤ i) ids
         ∧ ∃ x, requests s !! 0%nat = Some x
                ∧ ID x = 3
                ∧ ids !! 2%nat = Some (ID x)).
Proof.
  assert (minInt (w:=Int64) ≤ nextID oneRecord < maxInt (w:=Int64)) as H1
    by (split; [vm_compute; discriminate|reflexivity]).
  assert (Z.of_nat (inserts sampleRun) ≤ maxInt (w:=Int64)) as H2
    by (vm_compute; discriminate).
  split; (split; [done|]).
  - destruct (proj1 (proj2 (id_assignment (w:=Int64))) hook oneRecord)
      as (s' & x & Hins & Hx & _ & Hid & _ & Hnext).
    exists s', x. split; [exact Hins|]. split; [exact Hx|].
    split; [exact Hid|]. exact (Hnext H1).
  - destruct (proj2 (proj2 (id_assignment (w:=Int64))) sampleRun H2)
      as (ids & s & Hrun & Hids & Hnext & Hsorted & Hnodup & Hpos & Hstored).
    assert (is_Some (requests s !! 0%nat)) as [x Hx].
    { vm_compute in Hrun. by injection Hrun as _ <-. }
    destruct (Hstored 0%nat x Hx) as [Hid Hlook].
    exists ids, s. split; [exact Hrun|].
    split; [exact Hids|]. split; [exact Hnext|].
    split; [exact Hsorted|]. split; [exact Hnodup|]. split; [exact Hpos|].
    exists x. split; [exact Hx|]. split; [exact Hid|exact Hlook].
Defined.

Lemma eviction_order_witness :
  (100 < length (numbered <$> seq 1 101))%nat
  ∧ length (requests fullStore) = 100%nat
  ∧ (100 ≤ length (numbered <$> seq 1 100))%nat
  ∧ (∃ ids s,
       run (w:=Int64) (DoInsert <$> (numbered <$> seq 1 101)) initial
       = (Ok ids, s)
       ∧ length ids = 101%nat
       ∧ ID <$> requests s = reverse (seqZ 2 100))
  ∧ (∃ kept oldest s',
       requests fullStore = kept ++ [oldest]
       ∧ ID oldest = 1
       ∧ Insert (w:=Int64) hook fullStore = (Ok 101, s')
       ∧ requests s' = setID 101 hook :: kept)
  ∧ (∃ ids s kept oldest s',
       run (w:=Int64) (DoInsert <$> (numbered <$> seq 1 100)) initial
       = (Ok ids, s)
       ∧ requests s = kept ++ [oldest]
       ∧ oldest = setID 1 (numbered 1)
       ∧ Insert (w:=Int64) hook s = (Ok 101, s')
       ∧ requests s' = setID 101 hook :: kept).
Proof.
  assert (100 < length (numbered <$> seq 1 101))%nat as H1
    by (vm_compute; lia).
  assert (length (requests fullStore) = 100%nat) as H2 by reflexivity.
  assert (100 ≤ length (numbered <$> seq 1 100))%nat as H3
    by (vm_compute; lia).
  split; [exact H1|]. split; [exact H2|]. split; [exact H3|]. split_and!.
  - destruct (proj1 (eviction_order (w:=Int64)) (numbered <$> seq 1 101) H1)
      as (ids & s & Hrun & Hids & _ & Hreq).
    exists ids, s. split; [exact Hrun|]. split; [exact Hids|].
    vm_compute in Hrun. injection Hrun as <- <-. reflexivity.
  - destruct (proj1 (proj2 (eviction_order (w:=Int64))) hook fullStore H2)
      as (kept & oldest & s' & Hsplit & Hins & Hreq).
    exists kept, oldest, s'. split; [exact Hsplit|].
    split; [|split; [exact Hins|exact Hreq]].
    apply (f_equal last) in Hsplit. rewrite last_snoc in Hsplit.
    vm_compute in Hsplit. by injection Hsplit as <-.
  - destruct (proj1 (proj2 (proj2 (eviction_order (w:=Int64))))
                (numbered <$> seq 1 100) hook H3)
      as (ids & s & kept & oldest & s' & Hrun & Hsplit & Hold & Hins & Hreq).
    assert (ids = seqZ 1 100 ∧ nextID s = 101) as [Hids Hnext].
    { vm_compute in Hrun. by injection Hrun as <- <-. }
    exists ids, s, kept, oldest, s'. rewrite Hnext in Hins, Hreq.
    split; [exact Hrun|]. split; [exact Hsplit|].
    split; [|split; [exact Hins|exact Hreq]].
    rewrite Hids in Hold. vm_compute in Hold. by injection Hold as <-.
Defined.

Lemma header_flattening_witness :
  readAll sampleRequest = Some "payload"
  ∧ (∀ k v, Header sampleRequest !! k = Some v → v ≠ [])
  ∧ (∃ s' info,
       webhookHandler (w:=Int64) 5 sampleRequest oneRecord
       = (Ok (PlainText StatusOK "Webhook received"), s')
       ∧ requests s' !! 0%nat = Some info
       ∧ ID info = 2
       ∧ Headers info !! "Accept" = Some "text/html"
       ∧ Headers info !! "X-Token" = Some "abc"
       ∧ Headers info !! "Host" = None)
  ∧ (∃ out s',
       webhookHandler (w:=Int64) 5 tornRequest oneRecord = (out, s')
       ∧ out ≠ Ok (PlainText StatusOK "Webhook received")
       ∧ s' = oneRecord).
Proof.
  assert (readAll sampleRequest = Some "payload") as Hbody by reflexivity.
  assert (∀ k v, Header sampleRequest !! k = Some v → v ≠ []) as Hne.
  { intros k v Hkv ->. apply elem_of_map_to_list in Hkv.
    vm_compute in Hkv.
    repeat (apply elem_of_cons in Hkv as [Hkv|Hkv]; [discriminate|]).
    by apply elem_of_nil in Hkv. }
  split; [exact Hbody|]. split; [exact Hne|]. split.
  - destruct (proj1 (proj2 (header_flattening (w:=Int64) 5 sampleRequest
                              oneRecord)) _ Hbody Hne) as [s' Hrun].
    destruct (proj1 (header_flattening (w:=Int64) 5 sampleRequest oneRecord)
                _ _ Hrun eq_refl) as (info & Hinfo & Hid & Hlook & _).
    exists s', info. split; [exact Hrun|]. split; [exact Hinfo|].
    split; [exact Hid|]. rewrite !Hlook. split_and!; reflexivity.
  - destruct (webhookHandler (w:=Int64) 5 tornRequest oneRecord)
      as [out s'] eqn:Hrun.
    assert (out ≠ Ok (PlainText StatusOK "Webhook received")) as Hout.
    { vm_compute in Hrun. injection Hrun as <- _. discriminate. }
    exists out, s'. split; [reflexivity|]. split; [exact Hout|].
    exact (proj2 (proj2 (header_flattening (w:=Int64) 5 tornRequest
                           oneRecord)) _ _ Hrun Hout).
Defined.

Lemma clear_requires_post_witness :
  (reqMethod sampleRequest ≠ MethodPost
   ∧ clearRequestsHandler sampleRequest oneRecord
     = (Ok (PlainText StatusMethodNotAllowed "Method not allowed"), oneRecord))
  ∧ (reqMethod clearRequest = MethodPost
     ∧ clearRequestsHandler clearRequest oneRecord
       = (Ok (NoBody StatusOK), {| requests := []; nextID := 2 |})).
Proof.
  assert (reqMethod sampleRequest ≠ MethodPost) as H1 by discriminate.
  assert (reqMethod clearRequest = MethodPost) as H2 by reflexivity.
  split; (split; [done|]).
  - exact (proj1 (clear_requires_post sampleRequest oneRecord) H1).
  - exact (proj2 (clear_requires_post clearRequest oneRecord) H2).
Defined.

End Targets.

(** ** The webhook handler, case by case *)

Section Webhook.
Import GoInt GoIntFacts.
Context {w : IntSize}.

Lemma rangeHeader_Panic_inv entries acc msg :
  rangeHeader entries acc = Panic msg → ∃ k, (k, []) ∈ entries.
Proof.
  revert acc. induction entries as [|[k0 v0] rest IH]; intros acc Hrun; [done|].
  destruct v0 as [|x v0]; simpl in Hrun.
  - exists k0. apply list_elem_of_here.
  - destruct (IH _ Hrun) as [k Hk]. exists k. by apply list_elem_of_further.
Qed.

Lemma flattenHeaders_Panic_iff h :
  flattenHeaders h = Panic indexPanic ↔ ∃ k, h !! k = Some [].
Proof.
  split.
  - intros Hrun. destruct (rangeHeader_Panic_inv _ _ _ Hrun) as [k Hk].
    exists k. by apply elem_of_map_to_list.
  - intros [k Hk]. destruct (flattenHeaders h) as [m|msg] eqn:Hrun.
    + by destruct (flattenHeaders_nonempty _ _ Hrun k [] Hk).
    + f_equal. by eapply rangeHeader_Panic.
Qed.

Lemma recordOf_Some now r info :
  recordOf now r = Some info ↔
  ∃ body headers,
    readAll r = Some body ∧ flattenHeaders (Header r) = Ok headers
    ∧ info = {| ID := 0; Method := reqMethod r; URL := reqURL r;
                Headers := headers; Body := body;
                Timestamp := now; RemoteAddr := reqRemoteAddr r |}.
Proof.
  unfold recordOf. split.
  - destruct (readAll r) as [body|]; [|done].
    destruct (flattenHeaders (Header r)) as [headers|]; [|done].
    intros [= <-]. by exists body, headers.
  - intros (body & headers & -> & -> & ->). done.
Qed.

(** The three ways through [webhookHandler]. *)
Lemma webhookHandler_eq now r s :
  webhookHandler now r s =
    match readAll r, recordOf now r with
    | None, _ =>
        (Ok (PlainText StatusInternalServerError "Failed to read body"), s)
    | Some _, None => (Panic indexPanic, s)
    | Some _, Some info =>
        (Ok (PlainText StatusOK "Webhook received"),
         {| requests := take 100 (setID (nextID s) info :: requests s);
            nextID := incr (nextID s) |})
    end.
Proof.
  unfold webhookHandler, recordOf. destruct (readAll r) as [body|]; [|done].
  destruct (flattenHeaders (Header r)) as [headers|msg] eqn:Hflat.
  - erewrite bind_Ok by reflexivity. by erewrite bind_Ok by apply Insert_eq.
  - apply rangeHeader_Panic in Hflat as ->. done.
Qed.

(** X1. A webhook call whose body could be read and whose headers each
    carry a value is answered 200 whatever its method; it puts one record
    in front of [requests], cut to 100, and advances [nextID]. The record
    has the old counter as [ID], the request's method, URL, body and remote
    address as they came, the time of the call, and each header's first
    value. *)
Theorem webhook_stores_request (now : Time) (r : Request) (s : Store)
    (body : string) :
  readAll r = Some body →
  (∀ k v, Header r !! k = Some v → v ≠ []) →
  ∃ info,
    webhookHandler now r s
    = (Ok (PlainText StatusOK "Webhook received"),
       {| requests := take 100 (info :: requests s);
          nextID := incr (nextID s) |})
    ∧ ID info = nextID s
    ∧ Method info = reqMethod r
    ∧ URL info = reqURL r
    ∧ Body info = body
    ∧ Timestamp info = now
    ∧ RemoteAddr info = reqRemoteAddr r
    ∧ ∀ k, Headers info !! k = Header r !! k ≫= head.
Proof.
  intros Hbody Hne. destruct (flattenHeaders_Ok _ Hne) as [headers Hflat].
  rewrite webhookHandler_eq. unfold recordOf. rewrite Hbody, Hflat.
  eexists. split; [reflexivity|]. cbn [ID Method URL Body Timestamp RemoteAddr
    Headers setID]. split_and!; try done.
  by apply flattenHeaders_lookup.
Qed.

(** X2. [webhookHandler] ends in exactly one of three ways, decided by
    the request alone: 500 when the body cannot be read (the headers are
    not looked at), a run-time panic on [v[0]] when the body was read and
    some header name carries no value, 200 otherwise. *)
Theorem webhook_outcomes (now : Time) (r : Request) (s : Store) :
  ((webhookHandler now r s).1
   = Ok (PlainText StatusInternalServerError "Failed to read body")
   ↔ readAll r = None)
  ∧ ((webhookHandler now r s).1 = Panic indexPanic
     ↔ is_Some (readAll r) ∧ ∃ k, Header r !! k = Some [])
  ∧ ((webhookHandler now r s).1 = Ok (PlainText StatusOK "Webhook received")
     ↔ is_Some (readAll r) ∧ ∀ k v, Header r !! k = Some v → v ≠ []).
Proof.
  rewrite webhookHandler_eq. unfold recordOf.
  destruct (readAll r) as [body|]; simpl.
  2:{ split_and!; split; try done; by intros [[? [=]] _]. }
  destruct (flattenHeaders (Header r)) as [headers|msg] eqn:Hflat; simpl.
  - split_and!; split; try done.
    + intros [_ Hk]. apply flattenHeaders_Panic_iff in Hk. congruence.
    + intros _. split; [by eexists|]. by eapply flattenHeaders_nonempty.
  - pose proof (rangeHeader_Panic _ _ _ Hflat) as ->.
    split_and!; split; try done.
    + intros _. split; [by eexists|]. by apply flattenHeaders_Panic_iff.
    + intros [_ Hne]. destruct (flattenHeaders_Ok _ Hne). congruence.
Qed.

(** X3. The order in which the run-time visits the entries of [r.Header]
    does not show: any two visiting orders leave the same [headers] map, or
    both panic. *)
Theorem header_visit_order (h : gmap string (list string))
    (entries1 entries2 : list (string * list string)) :
  entries1 ≡ₚ map_to_list h →
  entries2 ≡ₚ map_to_list h →
  rangeHeader entries1 ∅ = rangeHeader entries2 ∅.
Proof.
  intros H1 H2. by rewrite (rangeHeader_order h entries1 H1),
    (rangeHeader_order h entries2 H2).
Qed.

End Webhook.

(** ** Runs with clears and snapshots *)

Section MixedRuns.
Import GoInt GoIntFacts.
Context {w : IntSize}.

Lemma run_app ops1 ops2 s ids1 s1 :
  run ops1 s = (Ok ids1, s1) →
  run (ops1 ++ ops2) s =
    match run ops2 s1 with
    | (Ok ids2, s2) => (Ok (ids1 ++ ids2), s2)
    | (Panic msg, s2) => (Panic msg, s2)
    end.
Proof.
  revert s ids1. induction ops1 as [|[info| |] rest IH]; intros s ids1.
  - rewrite run_nil. intros [= <- <-]. simpl. by destruct (run ops2 s) as [[]].
  - rewrite <- app_comm_cons, !run_Insert.
    destruct (run rest _) as [[ids|msg] s'] eqn:Hrest; [|done].
    intros [= <- <-]. erewrite IH by done.
    by destruct (run ops2 s') as [[]].
  - rewrite <- app_comm_cons, !run_Snapshot. apply IH.
  - rewrite <- app_comm_cons, !run_Clear. apply IH.
Qed.

Lemma inserted_length ops : length (inserted ops) = inserts ops.
Proof. induction ops as [|[]]; simpl; auto. Qed.

Lemma sinceLastClear_cons o rest :
  sinceLastClear (o :: rest) =
    if hasClear rest then sinceLastClear rest
    else if isClear o then rest else o :: rest.
Proof. done. Qed.

Lemma sinceLastClear_id ops : hasClear ops = false → sinceLastClear ops = ops.
Proof.
  destruct ops as [|o rest]; [done|]. rewrite sinceLastClear_cons.
  unfold hasClear. simpl. intros [Ho ->]%orb_false_elim. by rewrite Ho.
Qed.

(** A run that clears is some run, its last clear, and a run that does not
    clear. *)
Lemma sinceLastClear_split ops :
  hasClear ops = true →
  ∃ pre, ops = pre ++ DoClear :: sinceLastClear ops
         ∧ hasClear (sinceLastClear ops) = false.
Proof.
  induction ops as [|o rest IH]; [done|]. intros Hc.
  rewrite sinceLastClear_cons. destruct (hasClear rest) eqn:Hrest.
  - destruct (IH eq_refl) as (pre & Heq & Hno).
    exists (o :: pre). split; [|done]. by rewrite <- app_comm_cons, <- Heq.
  - unfold hasClear in Hc. simpl in Hc. fold (hasClear rest) in Hc.
    rewrite Hrest, orb_false_r in Hc. rewrite Hc.
    destruct o; try done. by exists [].
Qed.

(** A run that does not clear, from any store within the bound: the
    inserted records are put in front of what was there. *)
Lemma run_noClear ops s :
  hasClear ops = false →
  (length (requests s) ≤ 100)%nat →
  run ops s =
    (Ok (idsFrom (nextID s) (inserts ops)),
     {| requests :=
          take 100 (reverse (zip_with setID (idsFrom (nextID s) (inserts ops))
                               (inserted ops))
                    ++ requests s);
        nextID := Nat.iter (inserts ops) incr (nextID s) |}).
Proof.
  revert s. induction ops as [|[info| |] rest IH]; intros s Hc Hs.
  - destruct s as [reqs n]. simpl in *. by rewrite take_ge.
  - rewrite run_Insert.
    rewrite IH by (done || (cbn [requests]; rewrite length_take; lia)).
    cbn [requests nextID inserts inserted idsFrom zip_with].
    rewrite reverse_cons, <- app_assoc, take_app_take, Nat.iter_succ_r.
    done.
  - rewrite run_Snapshot. by apply IH.
  - done.
Qed.

(** X4. An insert into a slice of fewer than 100 records evicts nothing:
    every record that was stored is still there, in the same order, behind
    the new one. *)
Theorem insert_below_capacity (info : RequestInfo) (s : Store) :
  (length (requests s) < 100)%nat →
  ∃ s', Insert info s = (Ok (nextID s), s')
        ∧ requests s' = setID (nextID s) info :: requests s
        ∧ length (requests s') = S (length (requests s)).
Proof.
  intros Hlen. eexists. split; [apply Insert_eq|]. cbn [requests].
  rewrite take_ge by (simpl; lia). done.
Qed.

(** X5. After any serial run from the initial store, clears and snapshots
    included, [requests] holds exactly the records inserted since the last
    clear, newest first, each with the id its insert returned, cut to the
    100 most recent; so it holds min(k, 100) records, k the number of
    inserts since the last clear. *)
Theorem log_after_run (ops : list Op) :
  ∃ ids s,
    run ops initial = (Ok ids, s)
    ∧ requests s
      = take 100
          (reverse
             (zip_with setID
                (drop (inserts ops - inserts (sinceLastClear ops)) ids)
                (inserted (sinceLastClear ops))))
    ∧ length (requests s) = Nat.min (inserts (sinceLastClear ops)) 100.
Proof.
  assert (∀ ids recs, length ids = length recs →
            length (take 100 (reverse (zip_with setID ids recs)))
            = Nat.min (length recs) 100) as Hlen.
  { intros ids recs Heq.
    rewrite length_take, length_reverse, length_zip_with. lia. }
  destruct (hasClear ops) eqn:Hc.
  - destruct (sinceLastClear_split ops Hc) as (pre & Heq & Hno).
    set (post := sinceLastClear ops) in *.
    destruct (run_ids pre initial) as (s1 & Hpre & _ & _).
    pose proof (run_noClear post {| requests := []; nextID := nextID s1 |} Hno)
      as Hpost. cbn [requests nextID] in Hpost. rewrite app_nil_r in Hpost.
    eexists _, _. split.
    { rewrite Heq at 1. erewrite run_app by exact Hpre.
      rewrite run_Clear, Hpost by (simpl; lia). reflexivity. }
    cbn [requests].
    replace (inserts ops - inserts post)%nat
      with (length (idsFrom (nextID initial) (inserts pre))).
    2:{ rewrite idsFrom_length, Heq, inserts_app. simpl. lia. }
    rewrite drop_app_length. split; [done|].
    rewrite Hlen, inserted_length; [done|].
    by rewrite idsFrom_length, inserted_length.
  - rewrite (sinceLastClear_id ops Hc).
    eexists _, _. split; [apply run_noClear; [done|simpl; lia]|].
    cbn [requests initial]. rewrite app_nil_r, Nat.sub_diag, drop_0.
    split; [done|].
    rewrite Hlen, inserted_length; [done|].
    by rewrite idsFrom_length, inserted_length.
Qed.

End MixedRuns.

(** ** The ids that are stored *)

Section StoredIds.
Import GoInt GoIntFacts.
Context {w : IntSize}.

(** As long as the counter does not reach [maxInt], a run keeps the ids
    in [requests] lined up behind the counter. *)
Lemma run_keeps_ids_lined_up ops s :
  minInt ≤ nextID s →
  nextID s + Z.of_nat (inserts ops) ≤ maxInt →
  (∀ i x, requests s !! i = Some x → ID x = nextID s - 1 - Z.of_nat i) →
  Z.of_nat (length (requests s)) < nextID s →
  ∃ s', run ops s = (Ok (idsFrom (nextID s) (inserts ops)), s')
        ∧ nextID s' = nextID s + Z.of_nat (inserts ops)
        ∧ (∀ i x, requests s' !! i = Some x →
             ID x = nextID s' - 1 - Z.of_nat i)
        ∧ Z.of_nat (length (requests s')) < nextID s'.
Proof.
  revert s. induction ops as [|[info| |] rest IH]; intros s Hlo Hhi Hidx Hlen.
  - exists s. simpl. split_and!; try done. lia.
  - cbn [inserts] in Hhi.
    assert (incr (nextID s) = nextID s + 1) as Hincr
      by (apply incr_below_max; lia).
    rewrite run_Insert.
    destruct (IH {| requests := take 100 (setID (nextID s) info :: requests s);
                    nextID := incr (nextID s) |})
      as (s' & -> & Hnext & Hidx' & Hlen'); cbn [requests nextID].
    + rewrite Hincr. lia.
    + rewrite Hincr. lia.
    + rewrite Hincr. intros i x [Hx Hi]%lookup_take_Some.
      destruct i as [|i]; simpl in Hx.
      * injection Hx as <-. simpl. lia.
      * apply Hidx in Hx. lia.
    + rewrite Hincr, length_take. cbn [length]. lia.
    + exists s'. cbn [nextID] in Hnext. rewrite Hincr in Hnext.
      split_and!; try done. rewrite Hnext. cbn [inserts]. lia.
  - rewrite run_Snapshot. by apply IH.
  - rewrite run_Clear.
    apply (IH {| requests := []; nextID := nextID s |}); cbn [requests nextID];
      try done.
    simpl. lia.
Qed.

(** X6. In every store reached from the initial one by a run with fewer
    than [maxInt] inserts, the record at index i of [requests] has the id
    [nextID] - 1 - i: the stored ids are consecutive, decreasing from the
    front, positive and pairwise distinct. *)
Theorem stored_ids_consecutive (ops : list Op) :
  Z.of_nat (inserts ops) < maxInt →
  ∃ ids s,
    run ops initial = (Ok ids, s)
    ∧ nextID s = 1 + Z.of_nat (inserts ops)
    ∧ (∀ i x, requests s !! i = Some x →
         ID x = nextID s - 1 - Z.of_nat i ∧ 1 ≤ ID x)
    ∧ NoDup (ID <$> requests s).
Proof.
  intros Hn.
  destruct (run_keeps_ids_lined_up ops initial)
    as (s & Hrun & Hnext & Hidx & Hlen); cbn [initial requests nextID].
  - pose proof minInt_neg. lia.
  - lia.
  - done.
  - simpl. lia.
  - eexists _, s. split; [exact Hrun|]. split; [exact Hnext|]. split.
    + intros i x Hx. split; [by apply Hidx|].
      rewrite (Hidx i x Hx). apply lookup_lt_Some in Hx. lia.
    + apply NoDup_alt. intros i j id.
      rewrite !list_lookup_fmap.
      destruct (requests s !! i) as [x|] eqn:Hx; [|done].
      destruct (requests s !! j) as [y|] eqn:Hy; [|done].
      simpl. intros [= <-] [= Heq].
      rewrite (Hidx i x Hx), (Hidx j y Hy) in Heq. lia.
Qed.

End StoredIds.

(** ** Serving calls *)

Section Serving.
Import GoInt GoIntFacts.
Context {w : IntSize}.

Lemma serve_cons c rest s :
  serve (c :: rest) s =
    ((handle c s).1 :: (serve rest (handle c s).2).1,
     (serve rest (handle c s).2).2).
Proof.
  simpl. destruct (handle c s) as [out s1]. cbn [fst snd].
  by destruct (serve rest s1) as [outs s2].
Qed.

(** What a call leaves of the store is what its critical section, when it
    enters one, leaves. *)
Lemma handle_store c s :
  (handle c s).2 =
    match opsOf [c] with
    | DoInsert info :: _ =>
        {| requests := take 100 (setID (nextID s) info :: requests s);
           nextID := incr (nextID s) |}
    | DoClear :: _ => {| requests := []; nextID := nextID s |}
    | _ => s
    end.
Proof.
  destruct c as [now r|r|r]; simpl.
  - rewrite webhookHandler_eq. unfold recordOf.
    destruct (readAll r); [|done].
    by destruct (flattenHeaders (Header r)).
  - done.
  - unfold clearRequestsHandler, MethodPost.
    destruct (decide (reqMethod r = "POST")) as [Hm|Hm].
    + by rewrite decide_False by (intros Hne; by apply Hne).
    + by rewrite decide_True.
Qed.

Lemma opsOf_cons c rest : opsOf (c :: rest) = opsOf [c] ++ opsOf rest.
Proof.
  destruct c as [now r|r|r]; simpl.
  - by destruct (recordOf now r).
  - done.
  - by case_decide.
Qed.

(** X7. Serving any sequence of handler calls leaves the store that the
    corresponding run of critical sections leaves: one insert for each
    webhook call that built its record, one clear for each POST to the
    clear handler, one snapshot for each read; calls answered 500 or 405
    and calls ended by a panic leave no trace. Every call gets exactly one
    outcome. *)
Theorem serve_refines_run (calls : list Call) (s : Store) :
  ∃ ids,
    run (opsOf calls) s = (Ok ids, (serve calls s).2)
    ∧ length (serve calls s).1 = length calls.
Proof.
  revert s. induction calls as [|c rest IH]; intros s.
  - by exists [].
  - rewrite serve_cons, opsOf_cons. cbn [fst snd length].
    destruct (IH (handle c s).2) as (ids & Hrun & Hlen). rewrite Hlen.
    rewrite handle_store in Hrun |- *.
    destruct c as [now r|r|r]; simpl opsOf in *.
    + destruct (recordOf now r) as [info|]; simpl app.
      * rewrite run_Insert, Hrun. by eexists.
      * by exists ids.
    + simpl app. rewrite run_Snapshot. by exists ids.
    + case_decide; simpl app.
      * rewrite run_Clear. by exists ids.
      * by exists ids.
Qed.

End Serving.

(** ** The handlers and mixed runs at concrete inputs *)

Section MoreTargets.
Import GoInt GoIntFacts.

Lemma sampleRequest_headers :
  ∀ k v, Header sampleRequest !! k = Some v → v ≠ [].
Proof.
  intros k v Hkv ->. apply elem_of_map_to_list in Hkv.
  vm_compute in Hkv.
  repeat (apply elem_of_cons in Hkv as [Hkv|Hkv]; [discriminate|]).
  by apply elem_of_nil in Hkv.
Qed.

Lemma sampleEntries_visit :
  sampleEntries ≡ₚ map_to_list (Header sampleRequest)
  ∧ reverse sampleEntries ≡ₚ map_to_list (Header sampleRequest).
Proof.
  split; vm_compute; first [reflexivity | apply perm_swap].
Qed.

Lemma webhook_stores_request_witness :
  readAll sampleRequest = Some "payload"
  ∧ (∀ k v, Header sampleRequest !! k = Some v → v ≠ [])
  ∧ ∃ info,
      webhookHandler (w:=Int64) 5 sampleRequest oneRecord
      = (Ok (PlainText StatusOK "Webhook received"),
         {| requests := [info; setID 1 hook]; nextID := 3 |})
      ∧ ID info = 2
      ∧ Method info = "PUT"
      ∧ URL info = "/orders?id=7"
      ∧ Body info = "payload"
      ∧ Timestamp info = 5
      ∧ RemoteAddr info = "10.0.0.7:41000"
      ∧ ∀ k, Headers info !! k = Header sampleRequest !! k ≫= head.
Proof.
  assert (readAll sampleRequest = Some "payload") as Hbody by reflexivity.
  split; [exact Hbody|]. split; [exact sampleRequest_headers|].
  exact (webhook_stores_request (w:=Int64) 5 sampleRequest oneRecord
           "payload" Hbody sampleRequest_headers).
Defined.

Lemma webhook_outcomes_witness :
  (is_Some (readAll bareHeaderRequest)
   ∧ ∃ k, Header bareHeaderRequest !! k = Some [])
  ∧ (webhookHandler (w:=Int64) 7 bareHeaderRequest oneRecord).1
    = Panic indexPanic.
Proof.
  assert (is_Some (readAll bareHeaderRequest)
          ∧ ∃ k, Header bareHeaderRequest !! k = Some []) as H.
  { split; [by eexists|]. by exists "X-Empty". }
  split; [exact H|].
  exact (proj2 (proj1 (proj2 (webhook_outcomes (w:=Int64) 7 bareHeaderRequest
                                oneRecord))) H).
Defined.

Lemma header_visit_order_witness :
  sampleEntries ≡ₚ map_to_list (Header sampleRequest)
  ∧ reverse sampleEntries ≡ₚ map_to_list (Header sampleRequest)
  ∧ rangeHeader sampleEntries ∅ = rangeHeader (reverse sampleEntries) ∅.
Proof.
  split; [exact (proj1 sampleEntries_visit)|].
  split; [exact (proj2 sampleEntries_visit)|].
  exact (header_visit_order (Header sampleRequest) sampleEntries
           (reverse sampleEntries) (proj1 sampleEntries_visit)
           (proj2 sampleEntries_visit)).
Defined.

Lemma insert_below_capacity_witness :
  (length (requests nearlyFull) < 100)%nat
  ∧ ∃ s', Insert (w:=Int64) hook nearlyFull = (Ok 101, s')
          ∧ requests s' = setID 101 hook :: requests nearlyFull
          ∧ length (requests s') = 100%nat.
Proof.
  assert (length (requests nearlyFull) < 100)%nat as H by (vm_compute; lia).
  split; [exact H|].
  exact (insert_below_capacity (w:=Int64) hook nearlyFull H).
Defined.

Lemma stored_ids_consecutive_witness :
  Z.of_nat (inserts clearingRun) < maxInt (w:=Int64)
  ∧ ∃ ids s,
      run (w:=Int64) clearingRun initial = (Ok ids, s)
      ∧ nextID s = 5
      ∧ (∀ i x, requests s !! i = Some x →
           ID x = nextID s - 1 - Z.of_nat i ∧ 1 ≤ ID x)
      ∧ NoDup (ID <$> requests s).
Proof.
  assert (Z.of_nat (inserts clearingRun) < maxInt (w:=Int64)) as H
    by reflexivity.
  split; [exact H|].
  exact (stored_ids_consecutive (w:=Int64) clearingRun H).
Defined.

Lemma core_operations_total_witness :
  (100 ≤ length (requests fullStore))%nat
  ∧ ∃ s', Insert (w:=Int64) hook fullStore = (Ok 101, s')
          ∧ requests s' !! 0%nat = Some (setID 101 hook)
          ∧ (length (requests s') ≤ 100)%nat
          ∧ length (requests s') = 100%nat.
Proof.
  assert (100 ≤ length (requests fullStore))%nat as H by (vm_compute; lia).
  split; [exact H|].
  destruct (proj1 (core_operations_total (w:=Int64)) hook fullStore)
    as (s' & Hins & Hfront & _ & Hle & Hfull).
  exists s'. split; [exact Hins|]. split; [exact Hfront|].
  split; [exact Hle|]. exact (Hfull H).
Defined.

End MoreTargets.
